(** * Transient analysis of a capacitor discharging through a PCB coil

    A shallow embedding of [coil_simulation.py]: the derivation of the coil
    parameters from the geometry, the assembly of the state-space matrices
    and the post-processing of the solver's output series.

    The script computes with Python [int]s and binary64 [float]s.  The
    embedding is written once over an interface [Scalar] of the float
    operations the script uses, and instantiated twice:
    - [f64]: IEEE binary64 (Rocq's primitive floats), the arithmetic the
      script really runs, used to evaluate the script at its inputs;
    - [exact]: the rationals [Q], the same expressions without rounding,
      used for the algebraic and order properties.
    Python [int]s are [Z].  A division whose divisor can be zero returns
    [None] when it is (Python raises [ZeroDivisionError]). *)

From Stdlib Require Import ZArith Zquot QArith Qabs List Permutation Bool String.
From Stdlib Require Import Lia Lqa.
From Stdlib Require Import PrimFloat FloatOps SpecFloat FloatAxioms.
Import ListNotations.

Set Warnings "-inexact-float".
Local Open Scope Z_scope.

(** ** The error monad of the script: [None] is an uncaught exception. *)

Definition bind {A B : Type} (m : option A) (k : A -> option B) : option B :=
  match m with
  | Some a => k a
  | None => None
  end.

Notation "x <- m ;; k" := (bind m (fun x => k))
  (at level 61, m at next level, right associativity).

(** ** The float operations of the script *)

Class Scalar (F : Type) : Type := {
  of_int : Z -> F;              (* the conversion float(i) of an int operand *)
  lit : Q -> F;                 (* a decimal literal such as 1.75 *)
  plus : F -> F -> F;
  minus : F -> F -> F;
  times : F -> F -> F;
  over : F -> F -> F;           (* x / y for a divisor that is not zero *)
  negate : F -> F;              (* unary minus *)
  magnitude : F -> F;           (* abs(x) *)
  is_zero : F -> bool;          (* x == 0 *)
  greater : F -> F -> bool;     (* x > y *)
  to_int : F -> option Z;       (* int(x): truncation toward zero *)
  np_pi : F;                    (* np.pi *)
  sqrt2 : F                     (* 2**0.5 *)
}.

Declare Scope scalar_scope.
Delimit Scope scalar_scope with sc.
Notation "x + y" := (plus x y) : scalar_scope.
Notation "x - y" := (minus x y) : scalar_scope.
Notation "x * y" := (times x y) : scalar_scope.
Notation "x / y" := (over x y) : scalar_scope.
Notation "- x" := (negate x) : scalar_scope.

(** Python's true division: [ZeroDivisionError] on a zero divisor. *)
Definition pdiv {F} `{Scalar F} (x y : F) : option F :=
  if is_zero y then None else Some (x / y)%sc.

(** *** binary64 *)

Definition f64_of_int (z : Z) : float :=
  SF2Prim (binary_normalize prec emax z 0 false).

(** [int(x)] raises on an infinity or a NaN. *)
Definition f64_to_int (x : float) : option Z :=
  match Prim2SF x with
  | S754_zero _ => Some 0
  | S754_finite sg m e =>
      Some (cond_Zopp sg (if 0 <=? e then Zpos m * 2 ^ e else Zpos m / 2 ^ (- e)))
  | S754_infinity _ => None
  | S754_nan => None
  end.

Definition f64_lit (q : Q) : float :=
  PrimFloat.div (f64_of_int (Qnum q)) (f64_of_int (Zpos (Qden q))).

#[export] Instance f64 : Scalar float := {
  of_int := f64_of_int;
  lit := f64_lit;
  plus := PrimFloat.add;
  minus := PrimFloat.sub;
  times := PrimFloat.mul;
  over := PrimFloat.div;
  negate := PrimFloat.opp;
  magnitude := PrimFloat.abs;
  is_zero := fun x => PrimFloat.eqb x 0%float;
  greater := fun x y => PrimFloat.ltb y x;
  to_int := f64_to_int;
  np_pi := 0x1.921fb54442d18p+1%float;
  sqrt2 := PrimFloat.sqrt 2%float
}.

(** *** exact rationals *)

(** The rational a finite binary64 value denotes. *)
Definition Q_of_f64 (x : float) : Q :=
  match Prim2SF x with
  | S754_finite sg m e =>
      let v := if 0 <=? e then inject_Z (Zpos m * 2 ^ e)
               else Qmake (Zpos m) (Z.to_pos (2 ^ (- e))) in
      if sg then Qopp v else v
  | _ => 0%Q
  end.

(** [int(x)] truncates toward zero. *)
Definition Q_to_int (q : Q) : Z := Z.quot (Qnum q) (Zpos (Qden q)).

(** The constants [np.pi] and [2**0.5] are binary64 values, hence rationals. *)
Definition Q_pi : Q := Eval vm_compute in Q_of_f64 0x1.921fb54442d18p+1%float.
Definition Q_sqrt2 : Q := Eval vm_compute in Q_of_f64 (PrimFloat.sqrt 2%float).

#[export] Instance exact : Scalar Q := {
  of_int := inject_Z;
  lit := fun q => q;
  plus := Qplus;
  minus := Qminus;
  times := Qmult;
  over := Qdiv;
  negate := Qopp;
  magnitude := Qabs;
  is_zero := fun x => Qeq_bool x 0;
  greater := fun x y => negb (Qle_bool x y);
  to_int := fun q => Some (Q_to_int q);
  np_pi := Q_pi;
  sqrt2 := Q_sqrt2
}.

(** ** The script *)

Section Script.
Context {F : Type} `{Scalar F}.
Local Open Scope scalar_scope.

(** *** Constants *)

Definition p_copper : F := lit 1.7 * lit (1 # 100000).
Definition u_0 : F := of_int 4 * np_pi * lit (1 # 10000000).
Definition K1 : F := lit 2.34.
Definition K2 : F := lit 2.75.

(** *** Variables *)

Record Inputs : Type := {
  t : F;            (* copper thickness, mm *)
  w : F;            (* trace width, mm *)
  s : F;            (* trace spacing, mm *)
  n_series : Z;     (* series-connected windings *)
  C_coil : F;       (* capacitance, F *)
  R_mosfet : F;     (* switch resistance, ohm *)
  numb_pcb : Z;     (* stacked PCBs *)
  d_out : Z;        (* outer diameter, mm *)
  d_in : Z          (* inner diameter, mm *)
}.

Variable i : Inputs.

(** [n_parallel = numb_pcb * n_series / n_series] *)
Definition n_parallel : option F :=
  pdiv (of_int (numb_pcb i * n_series i)) (of_int (n_series i)).

(** [N = (d_out - d_in) / (2 * (w + s))] *)
Definition N : option F :=
  pdiv (of_int (d_out i - d_in i)) (of_int 2 * (w i + s i)).

(** [lengthTrace = 4 * (d_out + d_in) / 2 * (N + 1)] *)
Definition lengthTrace : option F :=
  n <- N ;;
  Some (of_int (4 * (d_out i + d_in i)) / of_int 2 * (n + of_int 1)).

(** [L_coil = (K1 * u_0 * N**2 * (d_out + d_in) / 2)
              / (1 + K2 * (d_out - d_in) / (d_out + d_in)) / 1000 * n_series**2],
    where [N**2] is the product of [N] with itself. *)
Definition L_coil : option F :=
  n <- N ;;
  r <- pdiv (K2 * of_int (d_out i - d_in i)) (of_int (d_out i + d_in i)) ;;
  q <- pdiv (K1 * u_0 * (n * n) * of_int (d_out i + d_in i) / of_int 2) (of_int 1 + r) ;;
  Some (q / of_int 1000 * of_int (n_series i ^ 2)).

(** [L_coil_single = (K1 * u_0 * N**2 * (d_out + d_in) / 2)
                     / (1 + K2 * (d_out - d_in) / (d_out + d_in)) / 1000] *)
Definition L_coil_single : option F :=
  n <- N ;;
  r <- pdiv (K2 * of_int (d_out i - d_in i)) (of_int (d_out i + d_in i)) ;;
  q <- pdiv (K1 * u_0 * (n * n) * of_int (d_out i + d_in i) / of_int 2) (of_int 1 + r) ;;
  Some (q / of_int 1000).


(** [R_coil = p_copper * lengthTrace / (w * t) * n_series / n_parallel
              + R_mosfet] *)
Definition R_coil : option F :=
  np <- n_parallel ;;
  len <- lengthTrace ;;
  r <- pdiv (p_copper * len) (w i * t i) ;;
  q <- pdiv (r * of_int (n_series i)) np ;;
  Some (q + R_mosfet i).

(** [R_coil_single = p_copper * lengthTrace / (w * t)] *)
Definition R_coil_single : option F :=
  len <- lengthTrace ;;
  pdiv (p_copper * len) (w i * t i).


(** [range(n)] *)
Definition range (n : Z) : list Z := map Z.of_nat (seq 0 (Z.to_nat n)).

(** The denominator and the term of one turn of the inverse sum:
    [1000 * n_series / (100 - 2 * (w + s) * k)]. *)
Definition a_inv_den (k : Z) : F := of_int 100 - of_int 2 * (w i + s i) * of_int k.

Definition a_inv_term (k : Z) : option F :=
  pdiv (of_int (1000 * n_series i)) (a_inv_den k).

(** The loop [for i in range(int(N)): a_inv_sum += ...], with the running
    value of [a_inv_sum] as accumulator. *)
Fixpoint a_inv_loop (ks : list Z) (acc : F) : option F :=
  match ks with
  | [] => Some acc
  | k :: rest => x <- a_inv_term k ;; a_inv_loop rest (acc + x)
  end.

Definition turns : option Z := n <- N ;; to_int n.

Definition a_inv_sum : option F :=
  n <- turns ;;
  a_inv_loop (range n) (of_int 0).

(** *** The state-space matrices *)

(** The field per unit of current:
    [8 * 2**0.5 * u_0 / (4 * np.pi) * a_inv_sum]. *)
Definition coupling (a : F) : F :=
  of_int 8 * sqrt2 * u_0 / (of_int 4 * np_pi) * a.

(** [np.array([[0, 1 / C_coil], [-1 / L_coil, -R_coil / L_coil]])] *)
Definition state_matrix (Cc L R : F) : option (list (list F)) :=
  a12 <- pdiv (of_int 1) Cc ;;
  a21 <- pdiv (of_int (-1)) L ;;
  a22 <- pdiv (- R) L ;;
  Some [[of_int 0; a12]; [a21; a22]].

Definition A : option (list (list F)) :=
  l <- L_coil ;;
  r <- R_coil ;;
  state_matrix (C_coil i) l r.

Definition B : list (list F) := [[of_int 0]; [of_int 0]].

Definition C : option (list (list F)) :=
  a <- a_inv_sum ;;
  Some [[of_int 0; coupling a]].

Definition D : list (list F) := [[of_int 0]].

(** [ct.ss(A, B, C, D)] *)
Record StateSpace : Type := {
  ss_A : list (list F);
  ss_B : list (list F);
  ss_C : list (list F);
  ss_D : list (list F)
}.

Definition sysStateSpace : option StateSpace :=
  a <- A ;;
  c <- C ;;
  Some {| ss_A := a; ss_B := B; ss_C := c; ss_D := D |}.

(** *** Console output before the simulation *)

Inductive printed : Type :=
| PFloat (x : F)
| PInt (z : Z).

Definition console : option (list (string * printed)) :=
  a <- a_inv_sum ;;
  l <- L_coil ;;
  r <- R_coil ;;
  rs <- R_coil_single ;;
  n <- turns ;;
  len <- lengthTrace ;;
  Some [ ("a_inv_sum = ", PFloat a);
         ("Inductance = ", PFloat (l * lit 1000000));
         ("Capacitance = ", PFloat (C_coil i * lit 1000000));
         ("Resistance = ", PFloat r);
         ("Resistance (single) = ", PFloat rs);
         ("Number of Turns (1 coil) = ", PInt n);
         ("Trace Length (1 coil) = ", PFloat len) ]%string.

(** *** Post-processing of the output series [systemOutput3] *)

(** Python's [max] of a sequence: the first element is kept until a
    strictly greater one comes; [ValueError] on an empty sequence. *)
Fixpoint max_from (m : F) (xs : list F) : F :=
  match xs with
  | [] => m
  | x :: rest => max_from (if greater x m then x else m) rest
  end.

Definition py_max (xs : list F) : option F :=
  match xs with
  | [] => None
  | x :: rest => Some (max_from x rest)
  end.

(** [max_magnetic_field = max(abs(systemOutput3)) * 10000] *)
Definition max_magnetic_field (systemOutput3 : list F) : option F :=
  m <- py_max (map magnitude systemOutput3) ;;
  Some (m * of_int 10000).

(** The series of the first plot: [-systemOutput3]. *)
Definition field_series (systemOutput3 : list F) : list F :=
  map negate systemOutput3.

(** The series of the second plot, for a coupling coefficient [kappa]:
    [-systemOutput3 / kappa]. *)
Definition current_series (kappa : F) (systemOutput3 : list F) : list F :=
  map (fun y => - y / kappa) systemOutput3.

Definition plotted_current (systemOutput3 : list F) : option (list F) :=
  a <- a_inv_sum ;;
  Some (current_series (coupling a) systemOutput3).

End Script.

Arguments Inputs F : clear implicits.
Arguments StateSpace F : clear implicits.
Arguments printed F : clear implicits.

(** ** What the matrices and the loop stand for *)

Section Meaning.
Context {F : Type} `{Scalar F}.
Local Open Scope scalar_scope.

(** The finite sum [f 0 + f 1 + ... + f (n-1)], taken from [0] upward. *)
Fixpoint sigma (n : nat) (f : Z -> F) : F :=
  match n with
  | O => of_int 0
  | S m => sigma m f + f (Z.of_nat m)
  end.

(** The coupling coefficient in the words of the specification, for a
    truncated turn count [n]:
    8 * sqrt 2 * mu_0 / (4 * pi) * sum over i in [0, n) of
    1000 * n_series / (100 - 2 * (w + s) * i). *)
Definition kappa_spec (i : Inputs F) (n : Z) : F :=
  of_int 8 * sqrt2 * u_0 / (of_int 4 * np_pi)
  * sigma (Z.to_nat n)
      (fun k => of_int (1000 * n_series i)
                / (of_int 100 - of_int 2 * (w i + s i) * of_int k)).

(** No turn of the list has a zero denominator. *)
Definition dens_nonzero (i : Inputs F) (ks : list Z) : bool :=
  forallb (fun k => negb (is_zero (a_inv_den i k))) ks.

(** The equations of a state-space system: dx/dt = A x + B u and
    y = C x + D u. *)

Definition dot (r v : list F) : F :=
  fold_right (fun p acc => fst p * snd p + acc) (of_int 0) (combine r v).

Definition mat_vec (M : list (list F)) (v : list F) : list F :=
  map (fun r => dot r v) M.

Definition vec_add (a b : list F) : list F :=
  map (fun p => fst p + snd p) (combine a b).


(** y = C x + D u *)
Definition ss_output (sys : StateSpace F) (x u : list F) : list F :=
  vec_add (mat_vec (ss_C sys) x) (mat_vec (ss_D sys) u).

End Meaning.

(** ** The inputs of the script *)

Definition inputs64 : Inputs float := {|
  t := (f64_of_int 2 * 0.0348)%float;
  w := 1.75%float;
  s := 0.25%float;
  n_series := 2;
  C_coil := 10e-3%float;
  R_mosfet := 0.01%float;
  numb_pcb := 10;
  d_out := 100;
  d_in := 20
|}.

Definition inputsQ : Inputs Q := {|
  t := (2 * 0.0348)%Q;
  w := 1.75%Q;
  s := 0.25%Q;
  n_series := 2;
  C_coil := 0.01%Q;
  R_mosfet := 0.01%Q;
  numb_pcb := 10;
  d_out := 100;
  d_in := 20
|}.

(** The reference geometry with the other inputs left free. *)
Definition geometry {F} `{Scalar F} (i : Inputs F) : Prop :=
  d_out i = 100 /\ d_in i = 20 /\ w i = lit 1.75 /\ s i = lit 0.25.

(** The inputs with another number of series windings. *)
Definition with_n_series {F} (i : Inputs F) (n : Z) : Inputs F := {|
  t := t i; w := w i; s := s i; n_series := n; C_coil := C_coil i;
  R_mosfet := R_mosfet i; numb_pcb := numb_pcb i;
  d_out := d_out i; d_in := d_in i
|}.

(** The invariants of the physical inputs that the monotonicity needs:
    positive thickness, width, spacing and number of boards, and
    0 < d_in < d_out. *)
Definition physical (i : Inputs Q) : Prop :=
  (0 < t i)%Q /\ (0 < w i)%Q /\ (0 < s i)%Q
  /\ (0 < numb_pcb i)%Z /\ (0 < d_in i < d_out i)%Z.

(** The same invariants on binary64 inputs. *)
Definition physical64 (i : Inputs float) : Prop :=
  PrimFloat.ltb 0 (t i) = true /\ PrimFloat.ltb 0 (w i) = true
  /\ PrimFloat.ltb 0 (s i) = true
  /\ (0 < numb_pcb i)%Z /\ (0 < d_in i < d_out i)%Z.

(** Every value of the list is defined and greater than the one before. *)
Fixpoint strictly_increasing {F} `{Scalar F} (xs : list (option F)) : bool :=
  match xs with
  | [] => true
  | None :: _ => false
  | Some x :: rest =>
      match rest with
      | [] => true
      | None :: _ => false
      | Some y :: _ => greater y x && strictly_increasing rest
      end
  end.


(** ** Evaluation of the script in binary64 *)

(** Two concrete binary64 values that IEEE comparison tells apart are
    different. *)
Ltac f64_differ :=
  let E := fresh "E" in
  intro E;
  match type of E with
  | _ = Some ?b =>
      apply (f_equal (fun o => match o with
                               | Some v => PrimFloat.eqb v b
                               | None => false
                               end)) in E
  | _ = ?b => apply (f_equal (fun v => PrimFloat.eqb v b)) in E
  end;
  vm_compute in E; discriminate E.

(** The decimal literals of the script, as binary64 values. *)
Example literals64 :
  (lit 1.7, lit (1 # 100000), lit (1 # 10000000), lit 2.34, lit 2.75)
  = (1.7, 1e-5, 1e-7, 2.34, 2.75)%float
  /\ (t inputs64, w inputs64, s inputs64, C_coil inputs64, R_mosfet inputs64)
     = (2 * 0.0348, lit 1.75, lit 0.25, lit 0.01, lit 0.01)%float.
Proof. split; reflexivity. Qed.

Example derived64 :
  n_parallel inputs64 = Some 10%float
  /\ N inputs64 = Some 20%float
  /\ turns inputs64 = Some 20
  /\ lengthTrace inputs64 = Some 5040%float
  /\ R_coil_single inputs64 = Some 0.70344827586206904%float
  /\ R_coil inputs64 = Some 0.15068965517241381%float
  /\ a_inv_sum inputs64 = Some 766.31242221008688%float.
Proof. repeat split; reflexivity. Qed.

Lemma geometry_inputs64 : geometry inputs64.
Proof. repeat split; reflexivity. Qed.

(** The same values without rounding. *)
Example derivedQ :
  exists n len,
    N inputsQ = Some n /\ (n == 20)%Q
    /\ turns inputsQ = Some 20
    /\ lengthTrace inputsQ = Some len /\ (len == 5040)%Q.
Proof. do 2 eexists. repeat split; reflexivity. Qed.

(** ** C1 and C6: the reference geometry *)

(** The turn count and the trace length only read the geometry. *)
Lemma geometry_N (i : Inputs float) :
  geometry i -> N i = N inputs64.
Proof.
  intros (Ho & Hi & Hw & Hs). unfold N. now rewrite Ho, Hi, Hw, Hs.
Qed.

Lemma geometry_lengthTrace (i : Inputs float) :
  geometry i -> lengthTrace i = lengthTrace inputs64.
Proof.
  intros G. unfold lengthTrace. rewrite (geometry_N i G).
  destruct G as (Ho & Hi & _). now rewrite Ho, Hi.
Qed.

(** C1, as the script computes it: for the geometry d_out = 100, d_in = 20,
    w = 1.75, s = 0.25 the turn count N = (d_out - d_in) / (2 * (w + s))
    is 80 / 4 = 20. *)
Theorem N_reference_geometry (i : Inputs float) :
  geometry i -> N i = Some 20%float.
Proof.
  intros G. rewrite (geometry_N i G). reflexivity.
Qed.

Lemma N_reference_geometry_witness :
  geometry inputs64 /\ N inputs64 = Some 20%float.
Proof.
  split; [exact geometry_inputs64 | apply (N_reference_geometry inputs64)].
  exact geometry_inputs64.
Defined.

(** C1 as stated fails: at the inputs of the script the turn count is not
    40. *)
Lemma N_reference_geometry_not_40 :
  geometry inputs64 /\ N inputs64 <> Some 40%float.
Proof.
  split; [exact geometry_inputs64 | f64_differ].
Qed.

(** C6, as the script computes it: for the same geometry the trace length
    4 * (d_out + d_in) / 2 * (N + 1) is 240 * 21 = 5040 mm. *)
Theorem lengthTrace_reference_geometry (i : Inputs float) :
  geometry i -> lengthTrace i = Some 5040%float.
Proof.
  intros G. rewrite (geometry_lengthTrace i G). reflexivity.
Qed.

Lemma lengthTrace_reference_geometry_witness :
  geometry inputs64 /\ lengthTrace inputs64 = Some 5040%float.
Proof.
  split; [exact geometry_inputs64 | apply (lengthTrace_reference_geometry inputs64)].
  exact geometry_inputs64.
Defined.

(** C6 as stated fails: at the inputs of the script the trace length is not
    9840 mm. *)
Lemma lengthTrace_reference_geometry_not_9840 :
  geometry inputs64 /\ lengthTrace inputs64 <> Some 9840%float.
Proof.
  split; [exact geometry_inputs64 | f64_differ].
Qed.

(** ** C2: the coupling coefficient of the output matrix *)

Section Coupling.
Context {F : Type} `{Scalar F}.
Local Open Scope scalar_scope.

Lemma a_inv_loop_app (i : Inputs F) (ks1 ks2 : list Z) (acc : F) :
  a_inv_loop i (ks1 ++ ks2) acc
  = (v <- a_inv_loop i ks1 acc ;; a_inv_loop i ks2 v).
Proof.
  revert acc. induction ks1 as [|k ks1 IH]; intros acc; simpl.
  - reflexivity.
  - destruct (a_inv_term i k) as [x|]; simpl; [apply IH | reflexivity].
Qed.

Lemma range_succ (n : nat) :
  range (Z.of_nat (S n)) = range (Z.of_nat n) ++ [Z.of_nat n].
Proof.
  unfold range. rewrite !Nat2Z.id, seq_S, map_app. reflexivity.
Qed.

Lemma a_inv_term_nonzero (i : Inputs F) (k : Z) :
  is_zero (a_inv_den i k) = false ->
  a_inv_term i k = Some (of_int (1000 * n_series i) / a_inv_den i k).
Proof.
  intros E. unfold a_inv_term, pdiv. now rewrite E.
Qed.

(** The loop adds the terms in the order of [sigma]. *)
Lemma a_inv_loop_sigma (i : Inputs F) (n : nat) :
  dens_nonzero i (range (Z.of_nat n)) = true ->
  a_inv_loop i (range (Z.of_nat n)) (of_int 0)
  = Some (sigma n (fun k => of_int (1000 * n_series i) / a_inv_den i k)).
Proof.
  induction n as [|n IH]; intros Hnz.
  - reflexivity.
  - rewrite range_succ in Hnz |- *.
    unfold dens_nonzero in Hnz. rewrite forallb_app in Hnz.
    apply andb_true_iff in Hnz as [Hnz Hlast].
    rewrite a_inv_loop_app, (IH Hnz). simpl in Hlast |- *.
    rewrite andb_true_r in Hlast. apply negb_true_iff in Hlast.
    now rewrite (a_inv_term_nonzero i _ Hlast).
Qed.

(** C2: the output matrix is [[0, kappa]]: it reads the second state, the
    current, with the coefficient kappa of the specification, whose sum
    is the loop over i = 0, ..., int(N) - 1. *)
Theorem output_matrix_coupling (i : Inputs F) (n : F) (k : Z) :
  N i = Some n ->
  to_int n = Some k ->
  dens_nonzero i (range k) = true ->
  a_inv_sum i
  = Some (sigma (Z.to_nat k)
            (fun j => of_int (1000 * n_series i)
                      / (of_int 100 - of_int 2 * (w i + s i) * of_int j)))
  /\ C i = Some [[of_int 0; kappa_spec i k]].
Proof.
  intros HN Hk Hnz.
  assert (Hsum : a_inv_sum i
                 = Some (sigma (Z.to_nat k)
                           (fun j => of_int (1000 * n_series i) / a_inv_den i j))).
  { unfold a_inv_sum, turns. rewrite HN. simpl. rewrite Hk. simpl.
    assert (R : range k = range (Z.of_nat (Z.to_nat k))).
    { unfold range. now rewrite Nat2Z.id. }
    rewrite R in Hnz |- *. now apply a_inv_loop_sigma. }
  split; [exact Hsum|].
  unfold C. rewrite Hsum. reflexivity.
Qed.

End Coupling.

Lemma output_matrix_coupling_witness :
  C inputs64 = Some [[0%float; kappa_spec inputs64 20]]
  /\ kappa_spec inputs64 20 = 0.00086698353640358582%float.
Proof.
  split; [|reflexivity].
  pose proof (output_matrix_coupling inputs64 20%float 20
                eq_refl eq_refl eq_refl) as [_ HC].
  rewrite HC. reflexivity.
Defined.

(** ** C4 and C5: the two plotted series *)

Section Series.
Context {F : Type} `{Scalar F}.
Local Open Scope scalar_scope.

Lemma current_series_field (kappa : F) (out : list F) :
  current_series kappa out = map (fun f => f / kappa) (field_series out).
Proof.
  unfold current_series, field_series. now rewrite map_map.
Qed.

(** C5: at every sample the field series is the negated output of the
    solver and the current series is that field value divided by kappa;
    the script plots the current series for the kappa of its output
    matrix. *)
Theorem post_processor_series
    (i : Inputs F) (kappa : F) (out : list F) (k : nat) (y : F) :
  nth_error out k = Some y ->
  nth_error (field_series out) k = Some (- y)
  /\ nth_error (current_series kappa out) k = Some (- y / kappa)
  /\ current_series kappa out = map (fun f => f / kappa) (field_series out)
  /\ List.length (field_series out) = List.length out
  /\ List.length (current_series kappa out) = List.length out
  /\ plotted_current i out
     = (a <- a_inv_sum i ;;
        Some (map (fun f => f / coupling a) (field_series out))).
Proof.
  intros Hy. repeat split.
  - unfold field_series. now rewrite nth_error_map, Hy.
  - unfold current_series. now rewrite nth_error_map, Hy.
  - apply current_series_field.
  - apply length_map.
  - apply length_map.
  - unfold plotted_current.
    destruct (a_inv_sum i) as [a|]; simpl; [|reflexivity].
    now rewrite current_series_field.
Qed.

(** C4, as the script computes it: at every sample the plotted current is
    the plotted field divided by kappa (the sign is that of the field:
    both are the negated output of the solver). *)
Theorem current_is_field_over_kappa
    (kappa : F) (out : list F) (k : nat) (f c : F) :
  nth_error (field_series out) k = Some f ->
  nth_error (current_series kappa out) k = Some c ->
  c = f / kappa.
Proof.
  rewrite current_series_field, nth_error_map. intros -> Hc.
  simpl in Hc. now injection Hc as <-.
Qed.

End Series.

Lemma post_processor_series_witness :
  nth_error (field_series [3; -1]%float) 1 = Some 1%float
  /\ nth_error (current_series 2%float [3; -1]%float) 1 = Some 0.5%float.
Proof.
  pose proof (post_processor_series inputs64 2%float [3; -1]%float 1
                (-1)%float eq_refl) as (Hf & Hc & _).
  split; [exact Hf | exact Hc].
Defined.

Lemma current_is_field_over_kappa_witness :
  (-1.5)%float = (-3 / 2)%float.
Proof.
  exact (current_is_field_over_kappa 2%float [3; -1]%float 0
           (-3)%float (-1.5)%float eq_refl eq_refl).
Defined.

(** C4 as stated fails: for the output series [1] and kappa = 2 the plotted
    field is -1 and the plotted current is -0.5, not -(-1)/2 = 0.5. *)
Lemma current_is_not_minus_field_over_kappa :
  ~ (forall (kappa : float) (out : list float) (k : nat) (f c : float),
        nth_error (field_series out) k = Some f ->
        nth_error (current_series kappa out) k = Some c ->
        c = (- f / kappa)%float).
Proof.
  intros Hall.
  specialize (Hall 2%float [1%float] 0%nat (-1)%float (-0.5)%float
                eq_refl eq_refl).
  revert Hall. f64_differ.
Qed.

(** ** Exact arithmetic *)

Section Exact.
Local Open Scope Q_scope.

Lemma pdiv_exact (x y : Q) : ~ y == 0 -> pdiv x y = Some (x / y).
Proof.
intros Hy. unfold pdiv. cbn [is_zero over exact].
destruct (Qeq_bool y 0) eqn:E; [|reflexivity].
apply Qeq_bool_eq in E. contradiction.
Qed.

Lemma greater_exact (x y : Q) : greater x y = true <-> y < x.
Proof.
cbn [greater exact]. rewrite negb_true_iff.
split.
- intros E. apply Qnot_le_lt. intros Hle.
  apply Qle_bool_iff in Hle. congruence.
- intros Hlt. destruct (Qle_bool x y) eqn:E; [|reflexivity].
  apply Qle_bool_iff in E. apply Qle_not_lt in E. contradiction.
Qed.

(** *** C9: the peak field *)

(** Python's [max] returns an element that no element exceeds. *)
Lemma max_from_spec (xs : list Q) (m : Q) :
  (max_from m xs = m \/ In (max_from m xs) xs)
  /\ m <= max_from m xs
  /\ forall x, In x xs -> x <= max_from m xs.
Proof.
revert m. induction xs as [|x xs IH]; intros m; cbn [max_from].
- repeat split; [now left | apply Qle_refl | intros _ []].
- destruct (greater x m) eqn:G.
  + apply greater_exact in G.
    destruct (IH x) as (Hin & Hle & Hall).
    repeat split.
    * right. destruct Hin as [-> | Hin]; [now left | now right].
    * apply Qle_trans with x; [now apply Qlt_le_weak | exact Hle].
    * intros y [<- | Hy]; [exact Hle | now apply Hall].
  + assert (Hxm : x <= m).
    { apply Qnot_lt_le. intros Hlt. apply greater_exact in Hlt. congruence. }
    destruct (IH m) as (Hin & Hle & Hall).
    repeat split.
    * destruct Hin as [-> | Hin]; [now left | right; now right].
    * exact Hle.
    * intros y [<- | Hy]; [now apply Qle_trans with m | now apply Hall].
Qed.

Lemma py_max_spec (xs : list Q) :
  xs <> [] ->
  exists m, py_max xs = Some m /\ In m xs /\ forall x, In x xs -> x <= m.
Proof.
destruct xs as [|x xs]; [congruence | intros _].
destruct (max_from_spec xs x) as (Hin & Hle & Hall).
exists (max_from x xs). simpl. repeat split.
- destruct Hin as [-> | Hin]; [now left | now right].
- intros y [<- | Hy]; [exact Hle | now apply Hall].
Qed.


End Exact.


(** The peak of some series in binary64: zeros of either sign, one sample,
    several samples, and no sample. *)
Example peak64 :
  max_magnetic_field [0; -0; 0]%float = Some 0%float
  /\ max_magnetic_field [(-0.25)%float] = Some 2500%float
  /\ max_magnetic_field [1; -3; 2]%float = Some 30000%float
  /\ max_magnetic_field (F := float) [] = None.
Proof. repeat split; reflexivity. Qed.

(** ** C7: the two resistances *)

Section Resistance.
Context {F : Type} `{Scalar F}.
Local Open Scope scalar_scope.

Lemma R_coil_of_single (i : Inputs F) :
  R_coil i
  = (np <- n_parallel i ;;
     rs <- R_coil_single i ;;
     q <- pdiv (rs * of_int (n_series i)) np ;;
     Some (q + R_mosfet i)).
Proof.
unfold R_coil, R_coil_single.
destruct (n_parallel i) as [np|]; [|reflexivity].
destruct (lengthTrace i) as [len|]; reflexivity.
Qed.

Lemma L_coil_of_single (i : Inputs F) :
  L_coil i
  = (ls <- L_coil_single i ;; Some (ls * of_int (n_series i ^ 2))).
Proof.
unfold L_coil, L_coil_single.
destruct (N i) as [n|]; [|reflexivity]. cbn [bind].
destruct (pdiv _ _) as [r|]; [|reflexivity]. cbn [bind].
destruct (pdiv _ _) as [q|]; reflexivity.
Qed.



End Resistance.


Example state_space64 :
  A inputs64
  = Some [[0; 100]; [-10036.925868657334; -1512.4608981390538]]%float
  /\ B (F := float) = [[0]; [0]]%float
  /\ C inputs64 = Some [[0; 0.00086698353640358582]]%float
  /\ D (F := float) = [[0]]%float.
Proof. repeat split; reflexivity. Qed.

(** ** C3: the state-space matrices *)

Section ExactModel.
Local Open Scope Q_scope.

Lemma state_matrix_exact (Cc L R : Q) :
  ~ Cc == 0 -> ~ L == 0 ->
  state_matrix Cc L R = Some [[0; 1 / Cc]; [inject_Z (-1) / L; - R / L]].
Proof.
intros HC HL. unfold state_matrix. cbn [of_int negate exact].
now rewrite !pdiv_exact by assumption.
Qed.




(** The output equation of the model reads the current alone. *)
Lemma output_reads_current (sys : StateSpace Q) (kappa v c u : Q) :
  ss_C sys = [[0; kappa]] -> ss_D sys = [[0]] ->
  Forall2 Qeq (ss_output sys [v; c] [u]) [kappa * c].
Proof.
intros HC HD. unfold ss_output. rewrite HC, HD. cbn.
repeat constructor. ring.
Qed.

End ExactModel.


(** ** C10: the denominators of the inverse sum *)

Section ExactSum.
Local Open Scope Q_scope.

Lemma N_exact (i : Inputs Q) :
  ~ w i + s i == 0 ->
  N i = Some (inject_Z (d_out i - d_in i) / (inject_Z 2 * (w i + s i))).
Proof.
intros Hws. unfold N. cbn [of_int plus times exact].
apply pdiv_exact. intros E. apply Hws.
apply (Qmult_inj_l _ _ (inject_Z 2)); [discriminate|]. now rewrite E.
Qed.

(** Below [int(q)] there is room for one more unit. *)
Lemma below_to_int (q : Q) (j : Z) :
  (0 <= j < Q_to_int q)%Z -> inject_Z j + 1 <= q.
Proof.
destruct q as [a b]. unfold Q_to_int. cbn [Qnum Qden]. intros [Hj Hlt].
assert (Ha : (0 <= a)%Z).
{ destruct (Z_lt_le_dec a 0) as [Hneg|]; [|assumption].
  pose proof (Z_mult_quot_ge a (Zpos b) (Z.lt_le_incl _ _ Hneg)). nia. }
pose proof (Z_mult_quot_le a (Zpos b) Ha) as [_ Hle].
unfold Qle, Qplus, inject_Z. cbn [Qnum Qden]. nia.
Qed.

Lemma range_In (n j : Z) : In j (range n) <-> (0 <= j < n)%Z.
Proof.
unfold range. rewrite in_map_iff. split.
- intros (m & <- & Hm). apply in_seq in Hm. lia.
- intros Hj. exists (Z.to_nat j). split; [lia|]. apply in_seq. lia.
Qed.

Lemma range_nil (n : Z) : (n <= 0)%Z -> range n = [].
Proof.
intros Hn. unfold range. now replace (Z.to_nat n) with 0%nat by lia.
Qed.

Lemma a_inv_den_pos (i : Inputs Q) (n : Q) (j : Z) :
  (0 < d_in i)%Z -> 0 < w i + s i -> (d_out i <= 100)%Z ->
  N i = Some n -> (0 <= j < Q_to_int n)%Z ->
  0 < a_inv_den i j <= 100.
Proof.
intros Hin Hws Hout HN Hj.
rewrite N_exact in HN by (intros E; rewrite E in Hws; discriminate).
injection HN as <-.
pose proof (below_to_int _ _ Hj) as Hb. destruct Hj as [Hj0 _].
unfold a_inv_den. cbn [of_int plus minus times exact].
set (P := inject_Z 2 * (w i + s i)) in *.
assert (HP : 0 < P).
{ unfold P. apply Qmult_lt_0_compat; [reflexivity | assumption]. }
assert (HD : inject_Z (d_out i - d_in i) < inject_Z 100).
{ rewrite <- Zlt_Qlt. lia. }
assert (Hmul : (inject_Z j + 1) * P <= inject_Z (d_out i - d_in i)).
{ apply Qmult_le_compat_r with (z := P) in Hb; [|now apply Qlt_le_weak].
  assert (Hc : inject_Z (d_out i - d_in i) / P * P
               == inject_Z (d_out i - d_in i)).
  { field. intros E. rewrite E in HP. discriminate. }
  now rewrite Hc in Hb. }
assert (Hnn : 0 <= P * inject_Z j).
{ apply Qmult_le_0_compat; [now apply Qlt_le_weak|].
  change 0 with (inject_Z 0). now rewrite <- Zle_Qle. }
assert (Hexp : (inject_Z j + 1) * P == P * inject_Z j + P) by ring.
change (inject_Z 100) with 100 in *.
split; lra.
Qed.

Lemma a_inv_term_exact (i : Inputs Q) (k : Z) :
  0 < a_inv_den i k ->
  a_inv_term i k = Some (inject_Z (1000 * n_series i) / a_inv_den i k).
Proof.
intros Hd. unfold a_inv_term. cbn [of_int exact].
apply pdiv_exact. intros E. rewrite E in Hd. discriminate.
Qed.

(** Over positive denominators the loop never divides by zero. *)
Lemma a_inv_loop_defined (i : Inputs Q) (ks : list Z) (acc : Q) :
  (forall k, In k ks -> 0 < a_inv_den i k) ->
  exists v, a_inv_loop i ks acc = Some v.
Proof.
revert acc. induction ks as [|k ks IH]; intros acc Hpos; cbn [a_inv_loop].
- now exists acc.
- rewrite a_inv_term_exact by (apply Hpos; now left). cbn [bind].
  apply IH. intros k' Hk'. apply Hpos. now right.
Qed.

(** With a positive number of windings it only grows. *)
Lemma a_inv_loop_grows (i : Inputs Q) (ks : list Z) (acc v : Q) :
  (0 < n_series i)%Z ->
  (forall k, In k ks -> 0 < a_inv_den i k) ->
  a_inv_loop i ks acc = Some v ->
  acc <= v /\ (ks <> [] -> acc < v).
Proof.
intros Hn. revert acc.
induction ks as [|k ks IH]; intros acc Hpos; cbn [a_inv_loop].
- intros E. injection E as <-. split; [apply Qle_refl | congruence].
- assert (Hk : 0 < a_inv_den i k) by (apply Hpos; now left).
  rewrite (a_inv_term_exact i k Hk). cbn [bind plus exact]. intros E.
  apply IH in E; [|intros k' Hk'; apply Hpos; now right].
  destruct E as [Hle _].
  assert (Hterm : 0 < inject_Z (1000 * n_series i) / a_inv_den i k).
  { apply Qlt_shift_div_l; [exact Hk|]. rewrite Qmult_0_l.
    change 0 with (inject_Z 0). rewrite <- Zlt_Qlt. lia. }
  split; [|intros _]; lra.
Qed.


End ExactSum.



(** ** C8: the number of series windings *)

Section ExactWindings.
Local Open Scope Q_scope.

Lemma Qdiv_pos (a b : Q) : 0 < a -> 0 < b -> 0 < a / b.
Proof.
intros Ha Hb. apply Qlt_shift_div_l; [exact Hb|]. now rewrite Qmult_0_l.
Qed.

Lemma Qplus_pos (a b : Q) : 0 < a -> 0 < b -> 0 < a + b.
Proof. intros Ha Hb. lra. Qed.

Lemma inject_Z_pos (z : Z) : (0 < z)%Z -> 0 < inject_Z z.
Proof. intros Hz. change 0 with (inject_Z 0). now rewrite <- Zlt_Qlt. Qed.

Lemma Qpos_nonzero (a : Q) : 0 < a -> ~ a == 0.
Proof. intros Ha E. rewrite E in Ha. discriminate. Qed.

Lemma K1_pos : 0 < K1 (F := Q).
Proof. reflexivity. Qed.

Lemma K2_pos : 0 < K2 (F := Q).
Proof. reflexivity. Qed.

Lemma u_0_pos : 0 < u_0 (F := Q).
Proof. reflexivity. Qed.

Lemma p_copper_pos : 0 < p_copper (F := Q).
Proof. reflexivity. Qed.

Create HintDb qpos.
#[local] Hint Resolve Qdiv_pos Qplus_pos Qmult_lt_0_compat inject_Z_pos
  K1_pos K2_pos u_0_pos p_copper_pos : qpos.

Section Fixed.
Variable i : Inputs Q.
Hypothesis Hphys : physical i.

Let Ht : 0 < t i := proj1 Hphys.
Let Hw : 0 < w i := proj1 (proj2 Hphys).
Let Hs : 0 < s i := proj1 (proj2 (proj2 Hphys)).
Let Hpcb : (0 < numb_pcb i)%Z := proj1 (proj2 (proj2 (proj2 Hphys))).
Let Hd : (0 < d_in i < d_out i)%Z := proj2 (proj2 (proj2 (proj2 Hphys))).

Lemma N_physical : exists n, N i = Some n /\ 0 < n.
Proof.
eexists. split.
- apply N_exact. apply Qpos_nonzero. auto with qpos.
- apply Qdiv_pos; [apply inject_Z_pos; lia|].
  apply Qmult_lt_0_compat; [reflexivity | auto with qpos].
Qed.

Lemma lengthTrace_physical : exists len, lengthTrace i = Some len /\ 0 < len.
Proof.
destruct N_physical as (n & HN & Hn).
unfold lengthTrace. rewrite HN. cbn [bind of_int plus times over exact].
eexists. split; [reflexivity|].
apply Qmult_lt_0_compat.
- apply Qdiv_pos; [apply inject_Z_pos; lia | reflexivity].
- apply Qplus_pos; [exact Hn | reflexivity].
Qed.

Lemma L_coil_single_physical :
  exists ls, L_coil_single i = Some ls /\ 0 < ls.
Proof.
destruct N_physical as (n & HN & Hn).
unfold L_coil_single. rewrite HN. cbn [bind of_int plus times over exact].
assert (HS : 0 < inject_Z (d_out i + d_in i)) by (apply inject_Z_pos; lia).
assert (HD : 0 < inject_Z (d_out i - d_in i)) by (apply inject_Z_pos; lia).
rewrite pdiv_exact by now apply Qpos_nonzero. cbn [bind].
assert (Hden : 0 < inject_Z 1 + K2 * inject_Z (d_out i - d_in i)
                                / inject_Z (d_out i + d_in i)).
{ apply Qplus_pos; [reflexivity | auto with qpos]. }
rewrite pdiv_exact by now apply Qpos_nonzero. cbn [bind].
eexists. split; [reflexivity|].
apply Qdiv_pos; [|reflexivity].
apply Qdiv_pos; [|exact Hden].
apply Qdiv_pos; [|reflexivity].
auto 8 with qpos.
Qed.

Lemma R_coil_single_physical :
  exists rs, R_coil_single i = Some rs /\ 0 < rs.
Proof.
destruct lengthTrace_physical as (len & Hlen & Hpos).
unfold R_coil_single. rewrite Hlen. cbn [bind times exact].
assert (Hwt : 0 < w i * t i) by auto with qpos.
rewrite pdiv_exact by now apply Qpos_nonzero.
eexists. split; [reflexivity | auto with qpos].
Qed.

End Fixed.

(** The derived values at [n] series windings, from the single-layer ones. *)
Lemma windings_at (i : Inputs Q) (n : Z) (ls rs : Q) :
  physical i -> (1 <= n)%Z ->
  L_coil_single i = Some ls -> R_coil_single i = Some rs ->
  exists l r p,
    n_parallel (with_n_series i n) = Some p
    /\ p == inject_Z (numb_pcb i)
    /\ L_coil (with_n_series i n) = Some l
    /\ l == ls * inject_Z (n ^ 2)
    /\ R_coil (with_n_series i n) = Some r
    /\ r == rs * (inject_Z n / p) + R_mosfet i.
Proof.
intros Hphys Hn HL HR.
assert (Hnq : 0 < inject_Z n) by (apply inject_Z_pos; lia).
assert (Hp : n_parallel (with_n_series i n)
             = Some (inject_Z (numb_pcb i * n) / inject_Z n)).
{ unfold n_parallel. cbn [numb_pcb n_series with_n_series of_int exact].
  apply pdiv_exact. now apply Qpos_nonzero. }
assert (Hpv : inject_Z (numb_pcb i * n) / inject_Z n == inject_Z (numb_pcb i)).
{ rewrite inject_Z_mult. field. now apply Qpos_nonzero. }
assert (Hpn : ~ inject_Z (numb_pcb i * n) / inject_Z n == 0).
{ rewrite Hpv. apply Qpos_nonzero, inject_Z_pos, Hphys. }
exists (ls * inject_Z (n ^ 2)),
       (rs * inject_Z n / (inject_Z (numb_pcb i * n) / inject_Z n) + R_mosfet i),
       (inject_Z (numb_pcb i * n) / inject_Z n).
split; [|split; [|split; [|split; [apply Qeq_refl | split]]]].
- exact Hp.
- exact Hpv.
- rewrite L_coil_of_single. change (L_coil_single (with_n_series i n))
    with (L_coil_single i). now rewrite HL.
- rewrite R_coil_of_single, Hp. change (R_coil_single (with_n_series i n))
    with (R_coil_single i). rewrite HR.
  cbn [bind n_series with_n_series of_int times exact].
  now rewrite pdiv_exact by exact Hpn.
- assert (Hmn : 0 < inject_Z (numb_pcb i * n)).
  { apply inject_Z_pos. destruct Hphys as (_ & _ & _ & Hpcb & _). nia. }
  field. split; now apply Qpos_nonzero.
Qed.

(** C8, as the script computes it.  Without rounding: for physical inputs
    and 1 <= n1 < n2 series windings, everything else fixed, the inductance
    is the single-layer inductance times n_series squared, the resistance
    is the single-layer resistance times n_series / n_parallel plus
    R_mosfet, where n_parallel is numb_pcb, and both are strictly larger at
    n2 than at n1; n1 = 1 is the single winding.  In binary64 the same two
    products and the quotient are taken with rounding, for every input; at
    the inputs of the script both values increase strictly along
    n_series = 1, 2, ..., 100. *)
Theorem series_windings_monotone :
  (forall (i : Inputs Q) (n1 n2 : Z),
      physical i -> (1 <= n1 < n2)%Z ->
      exists ls rs l1 l2 r1 r2 p1 p2,
        L_coil_single i = Some ls /\ R_coil_single i = Some rs
        /\ n_parallel (with_n_series i n1) = Some p1
        /\ n_parallel (with_n_series i n2) = Some p2
        /\ p1 == inject_Z (numb_pcb i) /\ p2 == inject_Z (numb_pcb i)
        /\ L_coil (with_n_series i n1) = Some l1
        /\ L_coil (with_n_series i n2) = Some l2
        /\ R_coil (with_n_series i n1) = Some r1
        /\ R_coil (with_n_series i n2) = Some r2
        /\ l1 == ls * inject_Z (n1 ^ 2) /\ l2 == ls * inject_Z (n2 ^ 2)
        /\ r1 == rs * (inject_Z n1 / p1) + R_mosfet i
        /\ r2 == rs * (inject_Z n2 / p2) + R_mosfet i
        /\ l1 < l2 /\ r1 < r2)
  /\ (forall (i : Inputs float) (n : Z),
        L_coil (with_n_series i n)
        = (ls <- L_coil_single i ;; Some (ls * of_int (n ^ 2))%sc)
        /\ R_coil (with_n_series i n)
           = (np <- n_parallel (with_n_series i n) ;;
              rs <- R_coil_single i ;;
              q <- pdiv (rs * of_int n)%sc np ;;
              Some (q + R_mosfet i)%sc))
  /\ strictly_increasing
       (map (fun n => L_coil (with_n_series inputs64 n))
            (map Z.succ (range 100))) = true
  /\ strictly_increasing
       (map (fun n => R_coil (with_n_series inputs64 n))
            (map Z.succ (range 100))) = true.
Proof.
split; [|split; [|split; vm_compute; reflexivity]].
- intros i n1 n2 Hphys Hn.
  destruct (L_coil_single_physical i Hphys) as (ls & HL & Hls).
  destruct (R_coil_single_physical i Hphys) as (rs & HR & Hrs).
  destruct (windings_at i n1 ls rs Hphys ltac:(lia) HL HR)
    as (l1 & r1 & p1 & Hp1 & Hq1 & HL1 & El1 & HR1 & Er1).
  destruct (windings_at i n2 ls rs Hphys ltac:(lia) HL HR)
    as (l2 & r2 & p2 & Hp2 & Hq2 & HL2 & El2 & HR2 & Er2).
  exists ls, rs, l1, l2, r1, r2, p1, p2.
  repeat split; try assumption.
  + rewrite El1, El2. apply Qmult_lt_l; [exact Hls|].
    rewrite <- Zlt_Qlt. nia.
  + rewrite Er1, Er2, Hq1, Hq2.
    assert (Hm : 0 < / inject_Z (numb_pcb i)).
    { apply Qinv_lt_0_compat, inject_Z_pos, Hphys. }
    assert (Hlt : inject_Z n1 / inject_Z (numb_pcb i)
                  < inject_Z n2 / inject_Z (numb_pcb i)).
    { unfold Qdiv. apply Qmult_lt_compat_r; [exact Hm|].
      rewrite <- Zlt_Qlt. lia. }
    apply (Qmult_lt_l _ _ rs Hrs) in Hlt. lra.
- intros i n. split.
  + exact (L_coil_of_single (with_n_series i n)).
  + exact (R_coil_of_single (with_n_series i n)).
Qed.

End ExactWindings.

Lemma physical_inputsQ : physical inputsQ.
Proof. repeat split; reflexivity. Qed.

Lemma series_windings_monotone_witness :
  exists l1 l2 r1 r2,
    L_coil (with_n_series inputsQ 1) = Some l1
    /\ L_coil (with_n_series inputsQ 2) = Some l2
    /\ R_coil (with_n_series inputsQ 1) = Some r1
    /\ R_coil (with_n_series inputsQ 2) = Some r2
    /\ (l1 < l2)%Q /\ (r1 < r2)%Q.
Proof.
destruct (proj1 series_windings_monotone inputsQ 1 2 physical_inputsQ)
  as (ls & rs & l1 & l2 & r1 & r2 & p1 & p2 & H).
- lia.
- exists l1, l2, r1, r2. tauto.
Defined.

(** C8 as stated fails in binary64, where rounding can absorb the increase:
    with R_mosfet = 1e16 and the other inputs of the script the resistance
    is 1e16 at one and at two series windings, and with w = 1e200 the square
    of the turn count underflows and the inductance is 0 at both. *)
Lemma series_windings_absorbed64 :
  let i := {| t := t inputs64; w := w inputs64; s := s inputs64;
              n_series := 1; C_coil := C_coil inputs64;
              R_mosfet := 1e16%float; numb_pcb := 10;
              d_out := 100; d_in := 20 |} in
  let j := {| t := t inputs64; w := 1e200%float; s := s inputs64;
              n_series := 1; C_coil := C_coil inputs64;
              R_mosfet := R_mosfet inputs64; numb_pcb := 10;
              d_out := 100; d_in := 20 |} in
  physical64 i
  /\ R_coil (with_n_series i 1) = Some 1e16%float
  /\ R_coil (with_n_series i 2) = Some 1e16%float
  /\ PrimFloat.ltb 1e16 1e16 = false
  /\ physical64 j
  /\ L_coil (with_n_series j 1) = Some 0%float
  /\ L_coil (with_n_series j 2) = Some 0%float
  /\ PrimFloat.ltb 0 0 = false.
Proof.
intros i j. unfold physical64.
repeat split; try reflexivity; cbn; lia.
Qed.

(** The same in binary64, at the inputs of the script with 1, 2 and 3
    series windings. *)
Example series_windings64 :
  map (fun n => L_coil (with_n_series inputs64 n)) [1; 2; 3]%Z
  = [Some 2.4908024954202749e-05; Some 9.9632099816810996e-05;
     Some 0.00022417222458782473]%float
  /\ map (fun n => R_coil (with_n_series inputs64 n)) [1; 2; 3]%Z
     = [Some 0.080344827586206896; Some 0.15068965517241381;
        Some 0.22103448275862073]%float.
Proof. split; reflexivity. Qed.

(** * Further properties of the script *)

(** ** Division by zero: where the script stops *)

(** X1: With no series winding the first division of the script,
    [numb_pcb * n_series / n_series], raises: no resistance, no state
    matrix, no model and no console output. *)
Theorem zero_windings_abort (i : Inputs float) :
  n_series i = 0 ->
  n_parallel i = None
  /\ R_coil i = None
  /\ A i = None
  /\ sysStateSpace i = None
  /\ console i = None.
Proof.
intros Hn.
assert (Hp : n_parallel i = None).
{ unfold n_parallel. rewrite Hn. reflexivity. }
assert (HR : R_coil i = None).
{ unfold R_coil. now rewrite Hp. }
assert (HA : A i = None).
{ unfold A. rewrite HR. now destruct (L_coil i). }
repeat split; try assumption.
- unfold sysStateSpace. now rewrite HA.
- unfold console. rewrite HR.
  destruct (a_inv_sum i); [|reflexivity]. now destruct (L_coil i).
Qed.

Lemma zero_windings_abort_witness :
  sysStateSpace (with_n_series inputs64 0) = None
  /\ console (with_n_series inputs64 0) = None.
Proof.
destruct (zero_windings_abort (with_n_series inputs64 0) eq_refl)
  as (_ & _ & _ & Hsys & Hcon).
split; assumption.
Defined.

Section Abort.
Context {F : Type} `{Scalar F}.
Local Open Scope scalar_scope.

(** X2: With a zero pitch [2 * (w + s)] the turn count raises, and with it
    everything the script derives from it. *)
Theorem zero_pitch_abort (i : Inputs F) (out : list F) :
  is_zero (of_int 2 * (w i + s i)) = true ->
  N i = None
  /\ turns i = None
  /\ lengthTrace i = None
  /\ L_coil_single i = None /\ L_coil i = None
  /\ R_coil_single i = None /\ R_coil i = None
  /\ a_inv_sum i = None
  /\ A i = None /\ C i = None /\ sysStateSpace i = None
  /\ console i = None
  /\ plotted_current i out = None.
Proof.
intros Hz.
assert (HN : N i = None) by (unfold N, pdiv; now rewrite Hz).
assert (Ht : turns i = None) by (unfold turns; now rewrite HN).
assert (Hlen : lengthTrace i = None) by (unfold lengthTrace; now rewrite HN).
assert (HL : L_coil i = None) by (unfold L_coil; now rewrite HN).
assert (Ha : a_inv_sum i = None) by (unfold a_inv_sum; now rewrite Ht).
assert (HA : A i = None) by (unfold A; now rewrite HL).
repeat split; try assumption.
- unfold L_coil_single. now rewrite HN.
- unfold R_coil_single. now rewrite Hlen.
- unfold R_coil. rewrite Hlen. now destruct (n_parallel i).
- unfold C. now rewrite Ha.
- unfold sysStateSpace. now rewrite HA.
- unfold console. now rewrite Ha.
- unfold plotted_current. now rewrite Ha.
Qed.

(** X3: The loop of the inverse sum raises exactly when one of the turns it
    visits has a zero denominator, whatever the accumulator; so does the
    inverse sum, over the turns below [int(N)]. *)
Theorem a_inv_loop_raises_iff (i : Inputs F) :
  (forall ks acc, a_inv_loop i ks acc = None <-> dens_nonzero i ks = false)
  /\ (forall k, turns i = Some k ->
        (a_inv_sum i = None <-> dens_nonzero i (range k) = false)).
Proof.
assert (Hloop : forall ks acc,
           a_inv_loop i ks acc = None <-> dens_nonzero i ks = false).
{ induction ks as [|k ks IH]; intros acc; cbn [a_inv_loop dens_nonzero forallb].
  - split; discriminate.
  - unfold a_inv_term, pdiv.
    destruct (is_zero (a_inv_den i k)); cbn [bind negb andb].
    + tauto.
    + apply IH. }
split; [exact Hloop|].
intros k Hk. unfold a_inv_sum. rewrite Hk. cbn [bind]. apply Hloop.
Qed.

(** X4: The inductance is the single-layer inductance times [n_series**2] in
    every arithmetic, rounding included, and the two raise together. *)
Theorem inductance_of_single (i : Inputs F) :
  L_coil i = (ls <- L_coil_single i ;; Some (ls * of_int (n_series i ^ 2)))
  /\ (L_coil i = None <-> L_coil_single i = None).
Proof.
pose proof (L_coil_of_single i) as E. split; [exact E|].
rewrite E. destruct (L_coil_single i); cbn [bind]; split; congruence.
Qed.

(** X5: A model is only built from inputs for which every line of the console
    output could be computed; the output has seven lines. *)
Theorem model_after_console (i : Inputs F) (sys : StateSpace F) :
  sysStateSpace i = Some sys ->
  exists lines, console i = Some lines /\ List.length lines = 7%nat.
Proof.
unfold sysStateSpace, A, C, console.
destruct (L_coil i) as [l|]; [|discriminate]. cbn [bind].
destruct (R_coil i) as [r|] eqn:HR; [|discriminate]. cbn [bind].
destruct (state_matrix (C_coil i) l r) as [a|]; [|discriminate]. cbn [bind].
destruct (a_inv_sum i) as [v|] eqn:Hv; [|discriminate]. cbn [bind].
intros _.
assert (Hturns : exists k, turns i = Some k).
{ unfold a_inv_sum in Hv. destruct (turns i) as [k|]; [now exists k | discriminate]. }
destruct Hturns as (k & ->).
assert (Hsingle : exists len rs,
           lengthTrace i = Some len /\ R_coil_single i = Some rs).
{ unfold R_coil in HR. unfold R_coil_single.
  destruct (n_parallel i) as [np|]; [|discriminate]. cbn [bind] in HR.
  destruct (lengthTrace i) as [len|]; [|discriminate]. cbn [bind] in HR |- *.
  destruct (pdiv (p_copper * len) (w i * t i)) as [rs|]; [|discriminate].
  now exists len, rs. }
destruct Hsingle as (len & rs & -> & ->). cbn [bind].
eexists. split; reflexivity.
Qed.

End Abort.

Lemma zero_pitch_abort_witness :
  let i := {| t := t inputs64; w := 1.75%float; s := (-1.75)%float;
              n_series := 2; C_coil := C_coil inputs64;
              R_mosfet := R_mosfet inputs64; numb_pcb := 10;
              d_out := 100; d_in := 20 |} in
  N i = None /\ sysStateSpace i = None.
Proof.
intros i.
assert (Hz : is_zero (times (of_int 2) (plus (w i) (s i))) = true)
  by reflexivity.
destruct (zero_pitch_abort i [] Hz)
  as (HN & _ & _ & _ & _ & _ & _ & _ & _ & _ & Hsys & _).
split; assumption.
Defined.

(** With a pitch of 5 mm and d_out = 130 the turn of index 20 has the
    denominator 100 - 5 * 20 = 0: the script raises in its loop. *)
Example zero_denominator64 :
  let i := {| t := t inputs64; w := 2.25%float; s := 0.25%float;
              n_series := 2; C_coil := C_coil inputs64;
              R_mosfet := R_mosfet inputs64; numb_pcb := 10;
              d_out := 130; d_in := 20 |} in
  turns i = Some 22
  /\ a_inv_den i 20 = 0%float
  /\ dens_nonzero i (range 22) = false
  /\ a_inv_sum i = None.
Proof. repeat split; reflexivity. Qed.

Lemma a_inv_loop_raises_iff_witness :
  let i := {| t := t inputs64; w := 2.25%float; s := 0.25%float;
              n_series := 2; C_coil := C_coil inputs64;
              R_mosfet := R_mosfet inputs64; numb_pcb := 10;
              d_out := 130; d_in := 20 |} in
  a_inv_sum i = None.
Proof.
intros i.
assert (Hk : turns i = Some 22%Z) by reflexivity.
apply (proj2 (a_inv_loop_raises_iff i) 22%Z Hk). reflexivity.
Defined.

Lemma model_after_console_witness :
  exists lines, console inputs64 = Some lines /\ List.length lines = 7%nat.
Proof.
destruct (sysStateSpace inputs64) as [sys|] eqn:Hsys; [|discriminate Hsys].
exact (model_after_console inputs64 sys Hsys).
Defined.

(** ** The derived parameters without rounding *)

Section ExactDerived.
Local Open Scope Q_scope.

(** X6: The number of parallel coils does not depend on the number of series
    windings: [numb_pcb * n_series / n_series] is [numb_pcb] whenever
    [n_series] is not zero, and raises exactly when it is. *)
Theorem n_parallel_is_numb_pcb (i : Inputs Q) :
  (n_parallel i = None <-> n_series i = 0%Z)
  /\ forall p, n_parallel i = Some p -> p == inject_Z (numb_pcb i).
Proof.
unfold n_parallel, pdiv. cbn [is_zero of_int over exact].
destruct (Qeq_bool (inject_Z (n_series i)) 0) eqn:E.
- apply Qeq_bool_eq in E.
  apply (proj1 (inject_Z_injective (n_series i) 0)) in E.
  split; [split; [intros _; exact E | reflexivity] | discriminate].
- apply Qeq_bool_neq in E. split.
  + split; [discriminate|]. intros Hn. exfalso. apply E. now rewrite Hn.
  + intros p Hp. injection Hp as <-. rewrite inject_Z_mult. now field.
Qed.


(** X8: For physical inputs with at least one series winding, a positive
    capacitance and a nonnegative switch resistance, the state matrix is
    [[0, a12], [a21, a22]] with a12 > 0, a21 < 0 and a22 < 0: its trace is
    negative and its determinant positive, so the discharge decays. *)
Theorem state_matrix_decays (i : Inputs Q) :
  physical i -> (1 <= n_series i)%Z -> 0 < C_coil i -> 0 <= R_mosfet i ->
  exists a12 a21 a22,
    A i = Some [[0; a12]; [a21; a22]]
    /\ 0 < a12 /\ a21 < 0 /\ a22 < 0
    /\ 0 + a22 < 0
    /\ 0 < 0 * a22 - a12 * a21.
Proof.
intros Hphys Hn HC HRm.
destruct (L_coil_single_physical i Hphys) as (ls & HLs & Hls).
destruct (R_coil_single_physical i Hphys) as (rs & HRs & Hrs).
destruct (windings_at i (n_series i) ls rs Hphys Hn HLs HRs)
  as (l & r & p & Hp & Hpv & HL & El & HR & Er).
change (L_coil (with_n_series i (n_series i))) with (L_coil i) in HL.
change (R_coil (with_n_series i (n_series i))) with (R_coil i) in HR.
assert (Hl : 0 < l).
{ rewrite El. apply Qmult_lt_0_compat; [exact Hls|].
  apply inject_Z_pos. nia. }
assert (Hr : 0 < r).
{ rewrite Er, Hpv.
  assert (0 < rs * (inject_Z (n_series i) / inject_Z (numb_pcb i))).
  { apply Qmult_lt_0_compat; [exact Hrs|].
    apply Qdiv_pos; apply inject_Z_pos; [lia | apply Hphys]. }
  lra. }
unfold A. rewrite HL, HR. cbn [bind].
rewrite state_matrix_exact by now apply Qpos_nonzero.
do 3 eexists. split; [reflexivity|].
assert (H12 : 0 < 1 / C_coil i) by (apply Qdiv_pos; [reflexivity | exact HC]).
assert (H21 : inject_Z (-1) / l < 0).
{ assert (E : inject_Z (-1) / l == - (1 / l)) by (now field; apply Qpos_nonzero).
  rewrite E. assert (0 < 1 / l) by (apply Qdiv_pos; [reflexivity | exact Hl]).
  lra. }
assert (H22 : - r / l < 0).
{ assert (E : - r / l == - (r / l)) by (now field; apply Qpos_nonzero).
  rewrite E. assert (0 < r / l) by now apply Qdiv_pos. lra. }
repeat split; try assumption.
- lra.
- assert (0 < (1 / C_coil i) * - (inject_Z (-1) / l)).
  { apply Qmult_lt_0_compat; [exact H12 | lra]. }
  lra.
Qed.

End ExactDerived.

Lemma n_parallel_is_numb_pcb_witness :
  n_parallel inputsQ = Some (20 # 2)%Q /\ (20 # 2 == inject_Z 10)%Q.
Proof.
split; [reflexivity|].
apply (proj2 (n_parallel_is_numb_pcb inputsQ) (20 # 2)%Q). reflexivity.
Defined.


Lemma state_matrix_decays_witness :
  exists a12 a21 a22,
    A inputsQ = Some [[0; a12]; [a21; a22]]%Q
    /\ (0 < a12 /\ a21 < 0 /\ a22 < 0)%Q.
Proof.
destruct (state_matrix_decays inputsQ physical_inputsQ)
  as (a12 & a21 & a22 & HA & H12 & H21 & H22 & _);
  [cbn; lia | reflexivity | discriminate |].
exists a12, a21, a22. tauto.
Defined.

(** ** The truncated turn count and the coupling coefficient *)

Section ExactTurns.
Local Open Scope Q_scope.

Lemma Q_to_int_floor (q : Q) :
  0 <= q -> inject_Z (Q_to_int q) <= q /\ q < inject_Z (Q_to_int q) + 1.
Proof.
destruct q as [a b]. unfold Q_to_int, Qle, Qlt, Qplus, inject_Z.
cbn [Qnum Qden]. intros Ha.
assert (Ha' : (0 <= a)%Z) by lia.
rewrite Z.quot_div_nonneg by lia.
pose proof (Z.mul_div_le a (Zpos b) ltac:(lia)).
pose proof (Z.mul_succ_div_gt a (Zpos b) ltac:(lia)).
split; nia.
Qed.

Lemma Q_to_int_ceil (q : Q) :
  q <= 0 -> q <= inject_Z (Q_to_int q) /\ inject_Z (Q_to_int q) - 1 < q.
Proof.
destruct q as [a b]. unfold Q_to_int, Qle, Qlt, Qminus, Qplus, Qopp, inject_Z.
cbn [Qnum Qden]. intros Ha.
assert (Ha' : (a <= 0)%Z) by lia.
replace a with (- (- a))%Z by lia. rewrite Zquot_opp_l.
rewrite Z.quot_div_nonneg by lia.
pose proof (Z.mul_div_le (- a) (Zpos b) ltac:(lia)).
pose proof (Z.mul_succ_div_gt (- a) (Zpos b) ltac:(lia)).
split; nia.
Qed.

(** X9: [int(N)] truncates toward zero: it is the floor of a nonnegative turn
    count and the ceiling of a negative one, always within one unit of N;
    the loop runs over [int(N)] turns, and over none when [int(N) <= 0]. *)
Theorem turns_truncate (i : Inputs Q) (n : Q) :
  N i = Some n ->
  exists k,
    turns i = Some k
    /\ (0 <= n -> inject_Z k <= n /\ n < inject_Z k + 1)
    /\ (n <= 0 -> n <= inject_Z k /\ inject_Z k - 1 < n)
    /\ List.length (range k) = Z.to_nat k.
Proof.
intros HN. exists (Q_to_int n). repeat split.
- unfold turns. now rewrite HN.
- now apply Q_to_int_floor.
- now apply Q_to_int_floor.
- now apply Q_to_int_ceil.
- now apply Q_to_int_ceil.
- unfold range. now rewrite length_map, length_seq.
Qed.

Lemma Q_to_int_ge_1 (q : Q) : 1 <= q -> (1 <= Q_to_int q)%Z.
Proof.
intros Hq.
destruct (Q_to_int_floor q) as [_ Hlt]; [lra|].
assert (H0 : 0 < inject_Z (Q_to_int q)) by lra.
change 0 with (inject_Z 0) in H0. rewrite <- Zlt_Qlt in H0. lia.
Qed.

Lemma coupling_pos (a : Q) : 0 < a -> 0 < coupling a.
Proof.
intros Ha. unfold coupling. apply Qmult_lt_0_compat; [reflexivity | exact Ha].
Qed.

(** X10: When the radial span [d_out - d_in] holds at least one pitch
    [2 * (w + s)], with d_in > 0, d_out <= 100 and a positive number of
    series windings, the loop visits at least one turn, and the inverse sum
    and the coupling coefficient of the output matrix are positive: the
    current plot never divides by zero. *)
Theorem coupling_positive (i : Inputs Q) :
  (0 < d_in i)%Z -> (d_out i <= 100)%Z -> 0 < w i + s i ->
  (0 < n_series i)%Z ->
  inject_Z 2 * (w i + s i) <= inject_Z (d_out i - d_in i) ->
  exists k a,
    turns i = Some k /\ (1 <= k)%Z
    /\ a_inv_sum i = Some a /\ 0 < a
    /\ C i = Some [[0; coupling a]] /\ 0 < coupling a.
Proof.
intros Hin Hout Hws Hser Hspan.
assert (Hnz : ~ w i + s i == 0) by now apply Qpos_nonzero.
pose proof (N_exact i Hnz) as HN.
set (n := inject_Z (d_out i - d_in i) / (inject_Z 2 * (w i + s i))) in HN.
assert (Hn : 1 <= n).
{ unfold n. apply Qle_shift_div_l.
  - apply Qmult_lt_0_compat; [reflexivity | exact Hws].
  - now rewrite Qmult_1_l. }
pose proof (Q_to_int_ge_1 n Hn) as Hk.
assert (Hturns : turns i = Some (Q_to_int n)).
{ unfold turns. now rewrite HN. }
assert (Hden : forall j, In j (range (Q_to_int n)) -> 0 < a_inv_den i j).
{ intros j Hj. apply range_In in Hj.
  now apply (a_inv_den_pos i n j Hin Hws Hout HN). }
destruct (a_inv_loop_defined i (range (Q_to_int n)) (inject_Z 0) Hden)
  as (a & Ha).
assert (Hpos : 0 < a).
{ destruct (a_inv_loop_grows i _ _ _ Hser Hden Ha) as [_ Hlt].
  apply Hlt. intros E.
  assert (Hin0 : In 0%Z (range (Q_to_int n))) by (apply range_In; lia).
  now rewrite E in Hin0. }
assert (Hsum : a_inv_sum i = Some a).
{ unfold a_inv_sum. now rewrite Hturns. }
exists (Q_to_int n), a. repeat split; try assumption.
- unfold C. now rewrite Hsum.
- now apply coupling_pos.
Qed.

End ExactTurns.

Lemma turns_truncate_witness :
  exists k, turns inputsQ = Some k /\ List.length (range k) = Z.to_nat k.
Proof.
destruct (N inputsQ) as [n|] eqn:HN; [|discriminate HN].
destruct (turns_truncate inputsQ n HN) as (k & Hk & _ & _ & Hlen).
now exists k.
Defined.

Lemma coupling_positive_witness :
  exists k a,
    turns inputsQ = Some k /\ (1 <= k)%Z
    /\ a_inv_sum inputsQ = Some a /\ (0 < a)%Q
    /\ C inputsQ = Some [[0%Q; coupling a]] /\ (0 < coupling a)%Q.
Proof.
apply (coupling_positive inputsQ);
  [reflexivity | discriminate | reflexivity | reflexivity | discriminate].
Defined.

(** X11: In binary64: when [int(N)] is not positive the loop body never runs,
    the inverse sum stays 0 and the output matrix is zero, so that the
    current plot divides every sample by zero. *)
Theorem no_turn_no_coupling (i : Inputs float) (k : Z) :
  turns i = Some k -> (k <= 0)%Z ->
  a_inv_sum i = Some 0%float
  /\ C i = Some [[0; 0]]%float
  /\ forall out,
       plotted_current i out = Some (map (fun y => (- y / 0)%float) out).
Proof.
intros Hk Hle.
assert (Ha : a_inv_sum i = Some 0%float).
{ unfold a_inv_sum. rewrite Hk. cbn [bind]. now rewrite (range_nil k Hle). }
repeat split.
- exact Ha.
- unfold C. now rewrite Ha.
- intros out. unfold plotted_current. now rewrite Ha.
Qed.

Lemma no_turn_no_coupling_witness :
  let i := {| t := t inputs64; w := w inputs64; s := s inputs64;
              n_series := 2; C_coil := C_coil inputs64;
              R_mosfet := R_mosfet inputs64; numb_pcb := 10;
              d_out := 22; d_in := 20 |} in
  C i = Some [[0; 0]]%float
  /\ plotted_current i [1; -1; 0]%float
     = Some [neg_infinity; infinity; nan].
Proof.
intros i.
destruct (no_turn_no_coupling i 0 eq_refl) as (_ & HC & Hplot); [lia|].
split; [exact HC | now rewrite Hplot].
Defined.

(** [int(x)] of a finite binary64 value is the truncation toward zero of the
    rational it denotes. *)
Lemma f64_to_int_truncates (x : float) (k : Z) :
  f64_to_int x = Some k -> k = Q_to_int (Q_of_f64 x).
Proof.
unfold f64_to_int, Q_of_f64, Q_to_int.
destruct (Prim2SF x) as [sg|sg| |sg m e]; try discriminate.
- intros E. now injection E as <-.
- intros E. injection E as <-.
  destruct (0 <=? e)%Z eqn:He.
  + destruct sg; cbn [cond_Zopp Qopp inject_Z Qnum Qden];
      now rewrite Z.quot_1_r.
  + apply Z.leb_gt in He.
    assert (Hp : (0 < 2 ^ (- e))%Z) by (apply Z.pow_pos_nonneg; lia).
    destruct sg; cbn [cond_Zopp Qopp Qnum Qden]; rewrite Z2Pos.id by exact Hp.
    * rewrite Zquot_opp_l. f_equal. symmetry.
      apply Z.quot_div_nonneg; lia.
    * symmetry. apply Z.quot_div_nonneg; lia.
Qed.

(** ** The peak and the plotted series *)

Lemma f64_abs_opp (x : float) :
  PrimFloat.abs (PrimFloat.opp x) = PrimFloat.abs x.
Proof.
apply Prim2SF_inj. rewrite !abs_spec, opp_spec.
destruct (Prim2SF x); reflexivity.
Qed.

Lemma Qabs_opp_eq (x : Q) : Qabs (Qopp x) = Qabs x.
Proof.
destruct x as [a b]. unfold Qabs, Qopp. cbn [Qnum Qden].
now rewrite Z.abs_opp.
Qed.

(** X12: The reported peak is also the peak of the plotted field series: negating
    the samples changes no absolute value, in binary64 (NaN, zeros and
    infinities included) as in exact arithmetic. *)
Theorem peak_of_field_series :
  (forall out : list float,
      max_magnetic_field (field_series out) = max_magnetic_field out)
  /\ (forall out : list Q,
        max_magnetic_field (field_series out) = max_magnetic_field out).
Proof.
split; intros out; unfold max_magnetic_field, field_series;
  rewrite map_map; f_equal; f_equal; apply map_ext; intros y;
  cbn [magnitude negate f64 exact].
- apply f64_abs_opp.
- apply Qabs_opp_eq.
Qed.

Section ExactPeak.
Local Open Scope Q_scope.

Lemma Qabs_zero_iff (y : Q) : Qabs y <= 0 <-> y == 0.
Proof.
split.
- intros Hy. apply Qabs_Qle_condition in Hy. lra.
- intros Hy. rewrite Hy. discriminate.
Qed.

(** X13: The peak is never negative, and it is zero exactly when every sample is
    zero. *)
Theorem peak_zero_iff (out : list Q) :
  out <> [] ->
  exists p,
    max_magnetic_field out = Some p
    /\ 0 <= p
    /\ (p == 0 <-> Forall (fun y => y == 0) out).
Proof.
intros Hne.
destruct (py_max_spec (map Qabs out)) as (m & Hmax & Hin & Hall).
{ destruct out; [congruence | discriminate]. }
assert (Hm : 0 <= m).
{ apply in_map_iff in Hin as (y & <- & _). apply Qabs_nonneg. }
exists (m * inject_Z 10000). repeat split.
- unfold max_magnetic_field. cbn [magnitude exact]. now rewrite Hmax.
- apply Qmult_le_0_compat; [exact Hm | discriminate].
- intros Hp. apply Forall_forall. intros y Hy.
  apply Qabs_zero_iff.
  assert (Hle : Qabs y <= m) by (apply Hall; now apply in_map).
  assert (Hm0 : m == 0).
  { change (inject_Z 10000) with 10000 in Hp. lra. }
  now rewrite <- Hm0.
- intros Hzero. apply in_map_iff in Hin as (y & <- & Hy).
  rewrite Forall_forall in Hzero. rewrite (Hzero y Hy). reflexivity.
Qed.

(** X14: The peak does not depend on the order of the samples. *)
Theorem peak_permutation (out out' : list Q) (p p' : Q) :
  Permutation out out' ->
  max_magnetic_field out = Some p ->
  max_magnetic_field out' = Some p' ->
  p == p'.
Proof.
intros Hperm Hp Hp'.
assert (Hne : out <> []).
{ intros ->. discriminate Hp. }
assert (Hne' : out' <> []).
{ intros ->. discriminate Hp'. }
destruct (py_max_spec (map Qabs out)) as (m & Hmax & Hin & Hall).
{ destruct out; [congruence | discriminate]. }
destruct (py_max_spec (map Qabs out')) as (m' & Hmax' & Hin' & Hall').
{ destruct out'; [congruence | discriminate]. }
unfold max_magnetic_field in Hp, Hp'. cbn [magnitude exact] in Hp, Hp'.
rewrite Hmax in Hp. rewrite Hmax' in Hp'.
injection Hp as <-. injection Hp' as <-.
assert (Hmm : m == m').
{ apply Qle_antisym.
  - apply Hall'. apply (Permutation_in m (Permutation_map Qabs Hperm) Hin).
  - apply Hall.
    apply (Permutation_in m' (Permutation_map Qabs (Permutation_sym Hperm)) Hin'). }
cbn [times of_int exact]. now rewrite Hmm.
Qed.

(** X15: Inverting the output equation: if the solver's output is kappa times
    the current of the state, with kappa not zero, the plotted current is
    the negated current of the state and the plotted field is kappa times
    the plotted current. *)
Theorem current_series_inverts_output (kappa : Q) (currents : list Q) :
  ~ kappa == 0 ->
  let out := map (fun x => kappa * x) currents in
  Forall2 Qeq (current_series kappa out) (map Qopp currents)
  /\ Forall2 Qeq (field_series out)
       (map (fun c => kappa * c) (current_series kappa out)).
Proof.
intros Hk out. subst out. unfold current_series, field_series.
rewrite !map_map. cbn [negate over times exact].
split; induction currents as [|x xs IH]; cbn [map]; constructor;
  try assumption; now field.
Qed.

End ExactPeak.

Lemma peak_zero_iff_witness :
  exists p,
    max_magnetic_field [0; 0 # 5; -0]%Q = Some p /\ (p == 0)%Q.
Proof.
destruct (peak_zero_iff [0; 0 # 5; -0]%Q) as (p & Hp & _ & Hiff);
  [discriminate|].
exists p. split; [exact Hp|]. apply Hiff.
repeat constructor.
Defined.

Lemma peak_permutation_witness :
  (3 * inject_Z 10000 == 3 * inject_Z 10000)%Q.
Proof.
apply (peak_permutation [1; -3; 2]%Q [2; 1; -3]%Q).
- apply Permutation_sym, (Permutation_cons_append [1; -3]%Q 2%Q).
- reflexivity.
- reflexivity.
Defined.

Lemma current_series_inverts_output_witness :
  Forall2 Qeq (current_series (1 # 2) (map (fun x => (1 # 2) * x) [4; -6]))%Q
              (map Qopp [4; -6]%Q).
Proof.
apply (current_series_inverts_output (1 # 2) [4; -6]%Q). discriminate.
Defined.

(** ** NaN samples in binary64 *)

Lemma f64_not_greater_nan (x : float) :
  greater x nan = false /\ greater nan x = false.
Proof.
cbn [greater f64]. rewrite !ltb_spec.
change (Prim2SF nan) with S754_nan.
split; destruct (Prim2SF x) as [sg|sg| |sg m e]; reflexivity.
Qed.

Lemma max_from_nan (out : list float) : max_from nan out = nan.
Proof.
induction out as [|x out IH]; cbn [max_from]; [reflexivity|].
now rewrite (proj1 (f64_not_greater_nan x)).
Qed.

Lemma max_from_skips_nan (m : float) (pre post : list float) :
  max_from m (pre ++ nan :: post) = max_from m (pre ++ post).
Proof.
revert m. induction pre as [|x pre IH]; intros m; cbn [app max_from].
- now rewrite (proj2 (f64_not_greater_nan m)).
- apply IH.
Qed.

(** X16: Python's [max] compares with [>], which is false on a NaN: a series
    whose first sample is a NaN has the peak NaN, whatever follows, and a
    NaN sample anywhere after the first is skipped. *)
Theorem peak_with_nan :
  (forall out : list float, max_magnetic_field (nan :: out) = Some nan)
  /\ (forall (y : float) (pre post : list float),
        max_magnetic_field (y :: pre ++ nan :: post)
        = max_magnetic_field (y :: pre ++ post)).
Proof.
split.
- intros out. unfold max_magnetic_field. cbn [map py_max bind].
  change (magnitude nan) with nan. now rewrite max_from_nan.
- intros y pre post. unfold max_magnetic_field.
  cbn [map py_max bind]. rewrite !map_app. cbn [map].
  change (magnitude nan) with nan. now rewrite max_from_skips_nan.
Qed.

Example peak_with_nan64 :
  max_magnetic_field [nan; 5; -7]%float = Some nan
  /\ max_magnetic_field [5; nan; -7]%float = Some 70000%float.
Proof. split; reflexivity. Qed.
